(** * hooks-belt: a shallow embedding of the timing and fetch hooks

    The hooks are React hooks: their retained state ([useState] cells,
    [useRef] cells) is modelled as an explicit record, and the host's
    scheduling (renders, timers, promise settlements, unmount) as events
    that a [step] function applies one at a time.  Time is the millisecond
    clock returned by [Date.now()], a [Z]. *)

From Stdlib Require Import ZArith String List Bool Lia.
Import ListNotations.
Open Scope string_scope.
Open Scope list_scope.

(** Decimal rendering of a number, as a JS template literal prints it. *)
Fixpoint uint_digits (d : Decimal.uint) : string :=
  match d with
  | Decimal.Nil => ""
  | Decimal.D0 d => ("0" ++ uint_digits d)%string
  | Decimal.D1 d => ("1" ++ uint_digits d)%string
  | Decimal.D2 d => ("2" ++ uint_digits d)%string
  | Decimal.D3 d => ("3" ++ uint_digits d)%string
  | Decimal.D4 d => ("4" ++ uint_digits d)%string
  | Decimal.D5 d => ("5" ++ uint_digits d)%string
  | Decimal.D6 d => ("6" ++ uint_digits d)%string
  | Decimal.D7 d => ("7" ++ uint_digits d)%string
  | Decimal.D8 d => ("8" ++ uint_digits d)%string
  | Decimal.D9 d => ("9" ++ uint_digits d)%string
  end.

Definition z_to_string (z : Z) : string :=
  match Z.to_int z with
  | Decimal.Pos u => uint_digits u
  | Decimal.Neg u => ("-" ++ uint_digits u)%string
  end.

(** ** useFetch (src/src/hooks/useFetch.ts) *)
Module Fetch.

(** A JS [Error] object, observed through its message. *)
Record Error := mkError { message : string }.

(** A thrown JS value: an [Error] instance or anything else. *)
Inductive thrown :=
| ThrowError (e : Error)
| ThrowOther.

Section Fetch.
Variable T : Type.

(** Outcome of [await response.json()]. *)
Inductive json_result :=
| JsonOk (v : T)
| JsonThrow (x : thrown).

(** The part of a [Response] that [fetchData] reads. *)
Record Response := mkResponse {
  ok : bool;
  status : Z;
  json : json_result
}.

(** Outcome of [await fetch(url, options)]. *)
Inductive fetch_result :=
| FetchReject (x : thrown)
| FetchResolve (r : Response).

(** The three [useState] cells of the hook. *)
Record state := mkState {
  data : option T;
  loading : bool;
  error : option Error
}.

(** A small exception monad for the body of the [try] block. *)
Inductive except (A : Type) :=
| Ok (a : A)
| Throw (x : thrown).
Arguments Ok {A} a.
Arguments Throw {A} x.

Definition bind {A B} (m : except A) (k : A -> except B) : except B :=
  match m with
  | Ok a => k a
  | Throw x => Throw x
  end.

Local Notation "x <- m ;; k" := (bind m (fun x => k))
  (at level 61, m at next level, right associativity).

Definition await_fetch (r : fetch_result) : except Response :=
  match r with
  | FetchReject x => Throw x
  | FetchResolve resp => Ok resp
  end.

Definition await_json (resp : Response) : except T :=
  match json resp with
  | JsonOk v => Ok v
  | JsonThrow x => Throw x
  end.

(** [try { ... const response = await fetch(url, options);
          if (!response.ok) throw new Error(`HTTP error! status: ...`);
          const result = await response.json(); ... }] *)
Definition try_body (r : fetch_result) : except T :=
  response <- await_fetch r ;;
  _ <- (if negb (ok response)
        then Throw (ThrowError
               (mkError ("HTTP error! status: " ++ z_to_string (status response))%string))
        else Ok tt) ;;
  await_json response.

(** [err instanceof Error ? err : new Error('An error occurred')] *)
Definition normalize (x : thrown) : Error :=
  match x with
  | ThrowError e => e
  | ThrowOther => mkError "An error occurred"
  end.

Definition setData (s : state) (v : option T) : state :=
  mkState v (loading s) (error s).
Definition setLoading (s : state) (b : bool) : state :=
  mkState (data s) b (error s).
Definition setError (s : state) (e : option Error) : state :=
  mkState (data s) (loading s) e.

(** [useState(null)], [useState(true)], [useState(null)]. *)
Definition init : state := mkState None true None.

(** The synchronous prefix of [fetchData]: [setLoading(true); setError(null)]. *)
Definition start (s : state) : state := setError (setLoading s true) None.

(** What [fetchData] does when its awaits settle: [setData(result)] on the
    success path, [setError(...)] in [catch], [setLoading(false)] in
    [finally]. *)
Definition settle (s : state) (r : fetch_result) : state :=
  let s1 := match try_body r with
            | Ok v => setData s (Some v)
            | Throw x => setError s (Some (normalize x))
            end in
  setLoading s1 false.

(** The hook instance: its cells, the [fetchData] calls still awaiting,
    and whether the component is mounted. *)
Record hook := mkHook {
  cells : state;
  pending : list nat;
  next_op : nat;
  mounted : bool
}.

(** [Trigger] is a call of [fetchData]: by the mount effect, by the effect
    re-running after [url] or [options] changed, or by [refetch()].
    [Settle op r] is the settlement of call [op] with outcome [r].
    [Detach] is the unmount: the hook registers no cleanup, but React
    (18, the version the tests render with) drops the [setState] calls of
    an unmounted component, so after it the calls still run and settle
    while the cells stay as they were. *)
Inductive event :=
| Trigger
| Settle (op : nat) (r : fetch_result)
| Detach.

Definition step (h : hook) (e : event) : hook :=
  match e with
  | Trigger =>
      mkHook (if mounted h then start (cells h) else cells h)
             (next_op h :: pending h) (S (next_op h)) (mounted h)
  | Settle op r =>
      if existsb (Nat.eqb op) (pending h)
      then mkHook (if mounted h then settle (cells h) r else cells h)
                  (filter (fun o => negb (Nat.eqb o op)) (pending h))
                  (next_op h) (mounted h)
      else h
  | Detach => mkHook (cells h) (pending h) (next_op h) false
  end.

Definition run (h : hook) (es : list event) : hook := fold_left step es h.

Definition mount : hook := mkHook init [] 0 true.

(** A failed outcome: [try_body] throws. *)
Definition fails (r : fetch_result) : bool :=
  match try_body r with Ok _ => false | Throw _ => true end.

End Fetch.

Arguments FetchReject {T} x.
Arguments FetchResolve {T} r.
Arguments JsonOk {T} v.
Arguments JsonThrow {T} x.
Arguments mkResponse {T} ok status json.
Arguments Trigger {T}.
Arguments Settle {T} op r.
Arguments Detach {T}.
Arguments mount {T}.
Arguments init {T}.

End Fetch.

(** ** useThrottle (src/unnamed/part_003) *)
Module Throttle.
Local Open Scope Z_scope.

Section Throttle.
(** The argument tuple [Parameters<T>]. *)
Variable A : Type.

(** A [setTimeout] registered by the throttled function, with the
    arguments captured by its closure. *)
Record timer := mkTimer {
  tid : nat;
  due : Z;
  targs : A
}.

(** The two refs of the hook, the host's pending timeouts of this hook,
    and the log of actual invocations of [func] (time, arguments). *)
Record world := mkWorld {
  lastExecuted : Z;
  timeoutId : option nat;
  timers : list timer;
  next_tid : nat;
  calls : list (Z * A);
  mounted : bool
}.

(** [useRef<number>(0)], [useRef(undefined)]. *)
Definition mount : world := mkWorld 0 None [] 0 [] true.

Definition clearTimeout (id : nat) (ts : list timer) : list timer :=
  filter (fun t => negb (Nat.eqb (tid t) id)) ts.

(** One call [throttled(...args)] at clock reading [now]. *)
Definition call (delay : Z) (w : world) (now : Z) (args : A) : world :=
  if Z.leb delay (now - lastExecuted w) then
    mkWorld now (timeoutId w) (timers w) (next_tid w)
            (calls w ++ [(now, args)]) (mounted w)
  else
    let ts := match timeoutId w with
              | Some id => clearTimeout id (timers w)
              | None => timers w
              end in
    let remainingDelay := delay - (now - lastExecuted w) in
    mkWorld (lastExecuted w) (Some (next_tid w))
            (ts ++ [mkTimer (next_tid w) (now + remainingDelay) args])
            (S (next_tid w)) (calls w) (mounted w).

Definition find_timer (id : nat) (ts : list timer) : option timer :=
  find (fun t => Nat.eqb (tid t) id) ts.

(** The host runs the callback of timeout [id] at clock reading [now]:
    [func(...args); lastExecuted.current = Date.now()]. *)
Definition fire (w : world) (id : nat) (now : Z) : world :=
  match find_timer id (timers w) with
  | Some t =>
      if Z.leb (due t) now then
        mkWorld now (timeoutId w) (clearTimeout id (timers w)) (next_tid w)
                (calls w ++ [(now, targs t)]) (mounted w)
      else w
  | None => w
  end.

Inductive event :=
| Call (now : Z) (args : A)
| Fire (id : nat) (now : Z)
| Unmount.

(** The hook registers no effect, hence no cleanup on unmount. *)
Definition step (delay : Z) (w : world) (e : event) : world :=
  match e with
  | Call now args => call delay w now args
  | Fire id now => fire w id now
  | Unmount =>
      mkWorld (lastExecuted w) (timeoutId w) (timers w) (next_tid w) (calls w) false
  end.

Definition run (delay : Z) (w : world) (es : list event) : world :=
  fold_left (step delay) es w.

(** At most one timeout of the hook is pending, and [timeoutId] names it. *)
Definition tinv (w : world) : Prop :=
  timers w = [] \/ exists t, timers w = [t] /\ timeoutId w = Some (tid t).

(** The clock readings of successive calls never go below [t0] nor
    backwards. *)
Fixpoint monotone_from (t0 : Z) (cs : list (Z * A)) : Prop :=
  match cs with
  | [] => True
  | (t, _) :: rest => t0 <= t /\ monotone_from t rest
  end.

End Throttle.

Arguments mount {A}.
Arguments Call {A} now args.
Arguments Fire {A} id now.
Arguments Unmount {A}.

End Throttle.

(** ** useDebounce

    The hook file of [useDebounce] is missing from the sources (its test
    useDebounce.test.ts and its callers are present), so this module
    follows section 4.1 of the spec. *)
Module Debounce.
Local Open Scope Z_scope.

Section Debounce.
Variable V : Type.
(** Identity/value comparison of inputs. *)
Variable V_eqb : V -> V -> bool.

(** Modelled from the spec: the retained state of useDebounce (missing
    hook file): the last seen input, the published output, the pending
    timer (due time, value), the log of publishes, attachment. *)
Record world := mkWorld {
  seen : V;
  out : V;
  pending : option (Z * V);
  publishes : list (Z * V);
  attached : bool
}.

(** Modelled from the spec: on the first tick the output equals the input
    immediately (useDebounce's hook file is missing). *)
Definition attach (v : V) : world := mkWorld v v None [] true.

(** Modelled from the spec: an input [v] observed at [now] that differs
    from the last seen one cancels the pending timer and arms a new one for
    [delay] carrying [v] (useDebounce's hook file is missing). *)
Definition input (delay : Z) (w : world) (now : Z) (v : V) : world :=
  if negb (attached w) || V_eqb v (seen w) then w
  else mkWorld v (out w) (Some (now + delay, v)) (publishes w) (attached w).

(** Modelled from the spec: when the clock reaches [now], a timer due by
    then fires and publishes its value (useDebounce's hook file is
    missing). *)
Definition advance (w : world) (now : Z) : world :=
  match pending w with
  | Some (d, v) =>
      if Z.leb d now then mkWorld (seen w) v None (publishes w ++ [(d, v)]) (attached w)
      else w
  | None => w
  end.

(** Modelled from the spec: an observation tick at [now]; timers due by
    then fire first, then the input is seen (useDebounce's hook file is
    missing). *)
Definition tick (delay : Z) (w : world) (tv : Z * V) : world :=
  input delay (advance w (fst tv)) (fst tv) (snd tv).

(** Modelled from the spec: detach cancels the pending timer
    (useDebounce's hook file is missing). *)
Definition detach (w : world) : world :=
  mkWorld (seen w) (out w) None (publishes w) false.

(** Modelled from the spec: a sequence of observation ticks
    (useDebounce's hook file is missing). *)
Definition run (delay : Z) (w : world) (tvs : list (Z * V)) : world :=
  fold_left (tick delay) tvs w.

(** Modelled from the spec: a burst of input changes, each differing from
    the previous input and, after the first, arriving within [delay] of the
    previous one. *)
Fixpoint rapid (delay : Z) (prev_t : option Z) (prev_v : V) (tvs : list (Z * V)) : Prop :=
  match tvs with
  | [] => True
  | (t, v) :: rest =>
      V_eqb v prev_v = false /\
      match prev_t with Some p => p <= t < p + delay | None => True end /\
      rapid delay (Some t) v rest
  end.

End Debounce.

Arguments attach {V} v.
Arguments input {V} V_eqb delay w now v.
Arguments advance {V} w now.
Arguments tick {V} V_eqb delay w tv.
Arguments detach {V} w.
Arguments run {V} V_eqb delay w tvs.
Arguments rapid {V} V_eqb delay prev_t prev_v tvs.

End Debounce.

(** ** useInterval (src/src/hooks/useInterval.ts)

    Callbacks are closures, identified by a reference number; the log
    records which closure each firing invoked. *)
Module Interval.
Local Open Scope Z_scope.

(** A [setInterval] registration. *)
Record itimer := mkITimer {
  iid : nat;
  period : Z;
  next_due : Z
}.

Record world := mkWorld {
  saved : option nat;              (* savedCallback.current; None: the initial () => {} *)
  dep_cb : option nat;             (* [callback] at the last committed render *)
  dep_delay : option (option Z);   (* [delay] at the last committed render *)
  timer : option itimer;           (* the interval set up by the second effect *)
  next_iid : nat;
  ilog : list (Z * nat);
  mounted : bool
}.

Definition mount : world := mkWorld None None None None 0 [] true.

Definition option_nat_eqb (a b : option nat) : bool :=
  match a, b with
  | Some x, Some y => Nat.eqb x y
  | None, None => true
  | _, _ => false
  end.

Definition option_Z_eqb (a b : option Z) : bool :=
  match a, b with
  | Some x, Some y => Z.eqb x y
  | None, None => true
  | _, _ => false
  end.

(** A committed render with [callback] = [cb] and [delay] = [d] at [now]:
    the first effect re-runs when [callback] changed, the second (after
    its cleanup [clearInterval(id)]) when [delay] changed. *)
Definition render (w : world) (now : Z) (cb : nat) (d : option Z) : world :=
  let w1 := if option_nat_eqb (dep_cb w) (Some cb) then w
            else mkWorld (Some cb) (Some cb) (dep_delay w) (timer w)
                         (next_iid w) (ilog w) (mounted w) in
  let same := match dep_delay w1 with
              | Some d' => option_Z_eqb d' d
              | None => false
              end in
  if same then w1
  else match d with
       | None => mkWorld (saved w1) (dep_cb w1) (Some d) None
                         (next_iid w1) (ilog w1) (mounted w1)
       | Some p => mkWorld (saved w1) (dep_cb w1) (Some d)
                           (Some (mkITimer (next_iid w1) p (now + p)))
                           (S (next_iid w1)) (ilog w1) (mounted w1)
       end.

(** The host runs the interval callback at [now]:
    [savedCallback.current?.()]. *)
Definition fire (w : world) (now : Z) : world :=
  match timer w with
  | Some t =>
      if Z.leb (next_due t) now then
        mkWorld (saved w) (dep_cb w) (dep_delay w)
                (Some (mkITimer (iid t) (period t) (next_due t + period t)))
                (next_iid w)
                (ilog w ++ match saved w with Some c => [(now, c)] | None => [] end)
                (mounted w)
      else w
  | None => w
  end.

(** Unmount runs the cleanup of the interval effect. *)
Definition unmount (w : world) : world :=
  mkWorld (saved w) (dep_cb w) (dep_delay w) None (next_iid w) (ilog w) false.

Inductive event :=
| Render (now : Z) (cb : nat) (d : option Z)
| Tick (now : Z)
| Unmount.

Definition step (w : world) (e : event) : world :=
  match e with
  | Render now cb d => render w now cb d
  | Tick now => fire w now
  | Unmount => unmount w
  end.

Definition run (w : world) (es : list event) : world := fold_left step es w.

(** The invariant of a mounted runner: the saved callback is the one of
    the last render, and an interval is registered exactly when the last
    rendered delay is non-null, with that delay as period. *)
Definition inv (w : world) : Prop :=
  saved w = dep_cb w /\
  (mounted w = true -> forall t, timer w = Some t -> dep_delay w = Some (Some (period t))) /\
  (mounted w = true -> forall p, dep_delay w = Some (Some p) -> timer w <> None).

End Interval.

(** ** usePrevious (src/src/hooks/usePrevious.ts) *)
Module Previous.

Section Previous.
Variable T : Type.

(** [useRef<T | undefined>(undefined)]; [None] is [undefined]. *)
Definition mount : option T := None.

(** One render with [value]: the hook returns [ref.current], then the
    effect (no dependency list, so after every render) stores [value].
    The pair is (returned value, ref afterwards). *)
Definition render (ref : option T) (value : T) : option T * option T :=
  (ref, Some value).

(** The values returned by successive renders. *)
Fixpoint renders (ref : option T) (values : list T) : list (option T) :=
  match values with
  | [] => []
  | v :: vs => let (ret, ref') := render ref v in ret :: renders ref' vs
  end.

End Previous.

Arguments mount {T}.
Arguments render {T} ref value.
Arguments renders {T} ref values.

End Previous.

(** ** useToggle (src/unnamed/part_004) *)
Module Toggle.

Inductive action :=
| Toggle     (* setValue(prev => !prev) *)
| SetTrue    (* setValue(true) *)
| SetFalse.  (* setValue(false) *)

(** [useState<boolean>(initialValue)] with [initialValue = false] by
    default; [None] is an omitted argument. *)
Definition init (initialValue : option bool) : bool :=
  match initialValue with
  | Some b => b
  | None => false
  end.

Definition update (value : bool) (a : action) : bool :=
  match a with
  | Toggle => negb value
  | SetTrue => true
  | SetFalse => false
  end.

(** React applies queued updates in order. *)
Definition apply_all (value : bool) (acts : list action) : bool :=
  fold_left update acts value.

End Toggle.

(** ** useWindowSize (src/src/hooks/useWindowSize.ts) *)
Module WindowSize.
Local Open Scope Z_scope.

(** [size] is the hook's state; [window] is [None] when
    [typeof window === 'undefined'], otherwise the current
    ([innerWidth], [innerHeight]); [listening] says whether [handleResize]
    is registered for 'resize'. *)
Record world := mkWorld {
  size : Z * Z;
  window : option (Z * Z);
  listening : bool
}.

(** The [useState] initializer. *)
Definition initial (win : option (Z * Z)) : world :=
  match win with
  | Some d => mkWorld d win false
  | None => mkWorld (0, 0) win false
  end.

(** [handleResize]: [setWindowSize] with the current window size. *)
Definition handleResize (w : world) : world :=
  match window w with
  | Some d => mkWorld d (window w) (listening w)
  | None => w
  end.

(** The mount effect: return early without a window, otherwise register
    [handleResize] and call it right away. *)
Definition effect (w : world) : world :=
  match window w with
  | None => w
  | Some _ => handleResize (mkWorld (size w) (window w) true)
  end.

Definition mount (win : option (Z * Z)) : world := effect (initial win).

(** The window is resized to [d] and dispatches 'resize'. *)
Definition resize (w : world) (d : Z * Z) : world :=
  match window w with
  | None => w
  | Some _ =>
      let w1 := mkWorld (size w) (Some d) (listening w) in
      if listening w then handleResize w1 else w1
  end.

(** The cleanup removes the listener. *)
Definition unmount (w : world) : world := mkWorld (size w) (window w) false.

Definition resizes (w : world) (ds : list (Z * Z)) : world := fold_left resize ds w.

End WindowSize.

(** ** useMediaQuery (src/src/hooks/useMediaQuery.ts)

    Each [window.matchMedia(query)] call of the effect yields a new
    MediaQueryList, identified by a number; [handleChange] is registered
    on it and removed by the cleanup. *)
Module MediaQuery.

Record world := mkWorld {
  matches : bool;
  dep_query : option string;   (* [query] at the last effect run *)
  listener : option nat;       (* the list [handleChange] is registered on *)
  next_mql : nat;
  has_window : bool            (* [typeof window !== 'undefined'] *)
}.

(** The [useState] initializer; [m] is [window.matchMedia(query).matches]. *)
Definition first_render (has_win : bool) (m : bool) : world :=
  mkWorld (if has_win then m else false) None None 0 has_win.

(** A committed render with [query]; [m] is the [matches] of the list the
    effect obtains from [window.matchMedia(query)] if it re-runs. *)
Definition render (w : world) (query : string) (m : bool) : world :=
  match dep_query w with
  | Some q => if String.eqb q query then w else
      if has_window w
      then mkWorld m (Some query) (Some (next_mql w)) (S (next_mql w)) true
      else mkWorld (matches w) (Some query) None (next_mql w) false
  | None =>
      if has_window w
      then mkWorld m (Some query) (Some (next_mql w)) (S (next_mql w)) true
      else mkWorld (matches w) (Some query) None (next_mql w) false
  end.

(** The list [mql] dispatches 'change' with [matches = b]. *)
Definition change (w : world) (mql : nat) (b : bool) : world :=
  match listener w with
  | Some l => if Nat.eqb l mql
              then mkWorld b (dep_query w) (listener w) (next_mql w) (has_window w)
              else w
  | None => w
  end.

Definition unmount (w : world) : world :=
  mkWorld (matches w) (dep_query w) None (next_mql w) (has_window w).

Inductive event :=
| Render (query : string) (m : bool)
| Change (mql : nat) (b : bool)
| Unmount.

Definition step (w : world) (e : event) : world :=
  match e with
  | Render q m => render w q m
  | Change mql b => change w mql b
  | Unmount => unmount w
  end.

Definition run (w : world) (es : list event) : world := fold_left step es w.

(** First render with [query] ([m0] read by the initializer), then its
    effect ([m1] read by the effect). *)
Definition mount (has_win : bool) (query : string) (m0 m1 : bool) : world :=
  render (first_render has_win m0) query m1.

End MediaQuery.

(** ** useOnClickOutside (src/src/hooks/useOnClickOutside.ts) *)
Module ClickOutside.

Section ClickOutside.
Variable Node : Type.
(** [el.contains(node)], the DOM's primitive. *)
Variable contains : Node -> Node -> bool.

Inductive kind := MouseDown | TouchStart.

(** A document event: its type and its [target] ([None] for null). *)
Record event := mkEvent { ekind : kind; target : option Node }.

(** Whether the two document listeners are registered, and the events
    passed to [handler]. *)
Record world := mkWorld {
  registered : bool;
  handled : list event
}.

Definition mount : world := mkWorld true [].

(** [listener(event)], with [ref.current] = [refcur] at dispatch time:
    [if (!el || el.contains(event.target || null)) return; handler(event)];
    [el.contains(null)] is false. *)
Definition listener (refcur : option Node) (ev : event) (log : list event) : list event :=
  match refcur with
  | None => log
  | Some el =>
      match target ev with
      | Some t => if contains el t then log else log ++ [ev]
      | None => log ++ [ev]
      end
  end.

(** The document dispatches [ev] while [ref.current] is [refcur]. *)
Definition dispatch (w : world) (refcur : option Node) (ev : event) : world :=
  if registered w then mkWorld true (listener refcur ev (handled w)) else w.

Definition unmount (w : world) : world := mkWorld false (handled w).

Definition dispatches (w : world) (evs : list (option Node * event)) : world :=
  fold_left (fun w re => dispatch w (fst re) (snd re)) evs w.

End ClickOutside.

Arguments mkEvent {Node} ekind target.
Arguments mount {Node}.
Arguments unmount {Node} w.
Arguments dispatch {Node} contains w refcur ev.
Arguments dispatches {Node} contains w evs.

End ClickOutside.

(** ** useDownloadFile (src/src/hooks/useDownloadFile.ts) *)
Module Download.
Local Open Scope Z_scope.

(** An anchor element made by [downloadFile]: [href] is the object URL. *)
Record link := mkLink { lid : nat; href : nat; download : string }.

Record world := mkWorld {
  isLoading : bool;
  body : list link;                 (* anchors in [document.body] *)
  live_urls : list nat;             (* object URLs not yet revoked *)
  clicked : list link;              (* [link.click()] calls *)
  cleanups : list (Z * link);       (* pending cleanup timeouts (due, link) *)
  next_id : nat;
  console : nat                     (* [console.log(error)] calls *)
}.

Definition mount : world := mkWorld false [] [] [] [] 0 0.

(** [downloadFile({ data, fileName })] at [now]; [fileName = None] is an
    omitted name, and [create_ok = false] means
    [window.URL.createObjectURL(data)] throws (e.g. [data] is not a Blob).
    No statement awaits, so the call runs to its end synchronously. *)
Definition downloadFile (w : world) (now : Z) (create_ok : bool)
    (fileName : option string) : world :=
  let name := match fileName with Some f => f | None => "file" end in
  (* setIsLoading(true) *)
  let w := mkWorld true (body w) (live_urls w) (clicked w) (cleanups w) (next_id w) (console w) in
  let w :=
    if create_ok then
      let url := next_id w in
      let lk := mkLink (S (next_id w)) url name in
      mkWorld (isLoading w) (body w ++ [lk]) (live_urls w ++ [url])
              (clicked w ++ [lk]) (cleanups w ++ [(now + 100, lk)])
              (S (S (next_id w))) (console w)
    else
      mkWorld (isLoading w) (body w) (live_urls w) (clicked w) (cleanups w)
              (next_id w) (S (console w)) in
  (* setIsLoading(false) *)
  mkWorld false (body w) (live_urls w) (clicked w) (cleanups w) (next_id w) (console w).

Definition remove_link (id : nat) (b : list link) : list link :=
  filter (fun l => negb (Nat.eqb (lid l) id)) b.

(** The cleanup timeout of [lk] runs at [now]: remove the link if the body
    still contains it, then [revokeObjectURL(url)]. *)
Definition cleanup (w : world) (lk : link) (now : Z) : world :=
  match find (fun c => Nat.eqb (lid (snd c)) (lid lk)) (cleanups w) with
  | Some (d, l) =>
      if Z.leb d now then
        let b := if existsb (fun x => Nat.eqb (lid x) (lid l)) (body w)
                 then remove_link (lid l) (body w) else body w in
        mkWorld (isLoading w) b
                (filter (fun u => negb (Nat.eqb u (href l))) (live_urls w))
                (clicked w)
                (filter (fun c => negb (Nat.eqb (lid (snd c)) (lid l))) (cleanups w))
                (next_id w) (console w)
      else w
  | None => w
  end.

Inductive event :=
| Download (now : Z) (create_ok : bool) (fileName : option string)
| Cleanup (lk : link) (now : Z).

Definition step (w : world) (e : event) : world :=
  match e with
  | Download now ok fn => downloadFile w now ok fn
  | Cleanup lk now => cleanup w lk now
  end.

Definition run (w : world) (es : list event) : world := fold_left step es w.

(** Every anchor and URL the hook made has an id below [next_id]. *)
Definition fresh (w : world) : Prop :=
  (forall l, In l (body w) -> (lid l < next_id w)%nat) /\
  (forall u, In u (live_urls w) -> (u < next_id w)%nat) /\
  (forall c, In c (cleanups w) -> (lid (snd c) < next_id w)%nat).

End Download.

(** * Properties *)

Module FetchFacts.
Import Fetch.

Lemma run_app {T} (h : hook T) (es1 es2 : list (event T)) :
  run T h (es1 ++ es2) = run T (run T h es1) es2.
Proof. unfold run. apply fold_left_app. Qed.

Lemma in_existsb (op : nat) (l : list nat) :
  In op l -> existsb (Nat.eqb op) l = true.
Proof.
  intros Hin. apply existsb_exists. exists op. split; [exact Hin|].
  apply Nat.eqb_refl.
Qed.

Lemma unmounted_run {T} (es : list (event T)) :
  forall h, mounted T h = false ->
  cells T (run T h es) = cells T h /\ mounted T (run T h es) = false.
Proof.
  induction es as [|e es IH]; intros h Hm; [split; [reflexivity|exact Hm]|].
  change (run T h (e :: es)) with (run T (step T h e) es).
  assert (Hs : cells T (step T h e) = cells T h /\ mounted T (step T h e) = false).
  { destruct e as [|op r|]; cbn [step]; rewrite ?Hm.
    - split; reflexivity.
    - destruct (existsb (Nat.eqb op) (pending T h)); cbn [cells mounted];
        [split; reflexivity | split; [reflexivity|exact Hm]].
    - split; reflexivity. }
  destruct Hs as [Hc Hm']. destruct (IH _ Hm') as [H1 H2].
  rewrite H1, Hc. split; [reflexivity|exact H2].
Qed.

Lemma settle_shape {T} (s : state T) (r : fetch_result T) :
  settle T s r =
  match try_body T r with
  | Ok _ v => mkState T (Some v) false (error T s)
  | Throw _ x => mkState T (data T s) false (Some (normalize x))
  end.
Proof. unfold settle. destruct (try_body T r); reflexivity. Qed.

(** C1 (counterexample).  The spec's scenario: descriptor A triggers a
    slow operation (call 0), descriptor B then triggers a fast one (call 1);
    B's success settles first, A's success afterwards.  The visible data
    after both settled is A's, not B's, the result of the most recent
    trigger. *)
Lemma fetch_stale_result_applied :
  let ok_resp v := FetchResolve (mkResponse true 200 (JsonOk v)) in
  let h := run string mount [Trigger; Trigger; Settle 1 (ok_resp "B");
                             Settle 0 (ok_resp "A")] in
  next_op string (run string mount [Trigger; Trigger]) = 2%nat /\
  pending string h = [] /\
  data string (cells string h) = Some "A" /\
  data string (cells string h) <> Some "B".
Proof. vm_compute. repeat split; congruence. Qed.

(** C1 (amended).  useFetch has no staleness guard: while the hook is
    mounted, settling any pending call of [fetchData], superseded by a
    later trigger or not, applies the
    same update to the cells; success sets data to the decoded result
    (error untouched), failure sets error (data untouched), and loading
    becomes false.  The visible data is thus set by whichever successful
    call settles last in completion order. *)
Theorem fetch_settle_unguarded {T} (h : hook T) (op : nat) (r : fetch_result T)
  (Hmnt : mounted T h = true) (Hpend : In op (pending T h)) :
  cells T (step T h (Settle op r)) = settle T (cells T h) r /\
  loading T (cells T (step T h (Settle op r))) = false /\
  data T (cells T (step T h (Settle op r))) =
    match try_body T r with
    | Ok _ v => Some v
    | Throw _ _ => data T (cells T h)
    end.
Proof.
  simpl. rewrite (in_existsb op _ Hpend), Hmnt. simpl.
  rewrite settle_shape. destruct (try_body T r); repeat split; reflexivity.
Qed.

Lemma fetch_settle_unguarded_witness :
  In 0%nat (pending nat (run nat mount [Trigger; Trigger])) /\
  cells nat (step nat (run nat mount [Trigger; Trigger])
               (Settle 0 (FetchResolve (mkResponse true 200 (JsonOk 7))))) =
    settle nat (cells nat (run nat mount [Trigger; Trigger]))
           (FetchResolve (mkResponse true 200 (JsonOk 7))) /\
  loading nat (cells nat (step nat (run nat mount [Trigger; Trigger])
               (Settle 0 (FetchResolve (mkResponse true 200 (JsonOk 7)))))) = false /\
  data nat (cells nat (step nat (run nat mount [Trigger; Trigger])
               (Settle 0 (FetchResolve (mkResponse true 200 (JsonOk 7)))))) =
    match try_body nat (FetchResolve (mkResponse true 200 (JsonOk 7))) with
    | Ok _ v => Some v
    | Throw _ _ => data nat (cells nat (run nat mount [Trigger; Trigger]))
    end.
Proof.
  assert (H : In 0%nat (pending nat (run nat mount [Trigger; Trigger])))
    by (simpl; tauto).
  split; [exact H|].
  exact (fetch_settle_unguarded (run nat mount [Trigger; Trigger]) 0
           (FetchResolve (mkResponse true 200 (JsonOk 7))) eq_refl H).
Defined.

(** C7.  The three failure kinds (rejection of [fetch], a response that is
    not ok, a throwing [response.json()]) all end in the same shape:
    data untouched, loading false, error set to an [Error] (the thrown
    [Error] itself, [new Error('An error occurred')] for a non-Error
    value, or [HTTP error! status: <status>] for a bad status). *)
Theorem fetch_failure_normalized {T} (s : state T) (x : thrown)
  (resp : Response T) :
  settle T s (FetchReject x) =
    mkState T (data T s) false (Some (normalize x)) /\
  (ok T resp = false ->
   settle T s (FetchResolve resp) =
     mkState T (data T s) false
       (Some (mkError ("HTTP error! status: " ++ z_to_string (status T resp))%string))) /\
  (ok T resp = true -> json T resp = JsonThrow x ->
   settle T s (FetchResolve resp) =
     mkState T (data T s) false (Some (normalize x))) /\
  normalize ThrowOther = mkError "An error occurred".
Proof.
  repeat split.
  - intros Hok. rewrite settle_shape. unfold try_body, bind, await_fetch.
    rewrite Hok. reflexivity.
  - intros Hok Hj. rewrite settle_shape. unfold try_body, bind, await_fetch, await_json.
    rewrite Hok, Hj. reflexivity.
Qed.

Lemma fetch_failure_normalized_witness :
  settle nat (@init nat) (FetchResolve (mkResponse false 404 (JsonOk 1))) =
    mkState nat None false (Some (mkError "HTTP error! status: 404")) /\
  settle nat (@init nat)
    (FetchResolve (mkResponse true 200 (JsonThrow (ThrowError (mkError "Unexpected token"))))) =
    mkState nat None false (Some (mkError "Unexpected token")).
Proof.
  destruct (fetch_failure_normalized (@init nat) (ThrowError (mkError "Unexpected token"))
              (mkResponse false 404 (JsonOk 1))) as [_ [H404 _]].
  destruct (fetch_failure_normalized (@init nat) (ThrowError (mkError "Unexpected token"))
              (mkResponse true 200 (JsonThrow (ThrowError (mkError "Unexpected token")))))
    as [_ [_ [Hdec _]]].
  split; [apply H404; reflexivity | apply Hdec; reflexivity].
Defined.

(** C9.  The failure path never writes [data]: in a mounted hook, a
    failing settlement keeps the data the cells had, as does the start of
    a call; after a call that starts and fails, data is what it was before
    the call, while loading is false and error is set, so data and error
    can both be non-null. *)
Theorem fetch_failure_keeps_data {T} (h : hook T) (op : nat) (r : fetch_result T)
  (Hmnt : mounted T h = true) (Hfail : fails T r = true) :
  data T (cells T (step T h (Settle op r))) = data T (cells T h) /\
  data T (cells T (step T h Trigger)) = data T (cells T h) /\
  data T (cells T (run T h [Trigger; Settle (next_op T h) r])) = data T (cells T h) /\
  loading T (cells T (run T h [Trigger; Settle (next_op T h) r])) = false /\
  error T (cells T (run T h [Trigger; Settle (next_op T h) r])) <> None.
Proof.
  unfold fails in Hfail.
  destruct (try_body T r) as [v|x] eqn:Hb; [discriminate|].
  assert (Hs : forall s, settle T s r = mkState T (data T s) false (Some (normalize x)))
    by (intros s; rewrite settle_shape, Hb; reflexivity).
  assert (Hrun : cells T (run T h [Trigger; Settle (next_op T h) r]) =
                 mkState T (data T (cells T h)) false (Some (normalize x))).
  { unfold run. simpl fold_left. rewrite Nat.eqb_refl, Hmnt. cbn [orb cells mounted].
    rewrite Hs. reflexivity. }
  rewrite Hrun. split; [|split; [|split; [reflexivity|split; [reflexivity|]]]].
  - cbn [step]. destruct (existsb (Nat.eqb op) (pending T h)); [|reflexivity].
    cbn [cells]. rewrite Hmnt, Hs. reflexivity.
  - cbn [step cells]. rewrite Hmnt. reflexivity.
  - simpl. congruence.
Qed.

Lemma fetch_failure_keeps_data_witness :
  let h := run nat mount [Trigger; Settle 0 (FetchResolve (mkResponse true 200 (JsonOk 5)))] in
  fails nat (FetchReject ThrowOther) = true /\
  data nat (cells nat (run nat h [Trigger; Settle (next_op nat h) (FetchReject ThrowOther)]))
    = Some 5 /\
  error nat (cells nat (run nat h [Trigger; Settle (next_op nat h) (FetchReject ThrowOther)]))
    <> None.
Proof.
  intros h.
  assert (Hf : fails nat (FetchReject ThrowOther) = true) by reflexivity.
  destruct (fetch_failure_keeps_data h 0 (FetchReject ThrowOther) eq_refl Hf)
    as [_ [_ [Hd [_ He]]]].
  split; [exact Hf|]. split; [|exact He].
  rewrite Hd. reflexivity.
Defined.

(** C10.  The first observation is the Loading state: data null, loading
    true, error null; the calls of [fetchData] started before any
    settlement leave it so. *)
Theorem fetch_initial_state {T} (n : nat) :
  cells T (run T mount (repeat Trigger n)) = mkState T None true None.
Proof.
  assert (H : forall h, mounted T h = true -> cells T h = mkState T None true None ->
                cells T (run T h (repeat Trigger n)) = mkState T None true None).
  { induction n as [|n IH]; intros h Hm Hh; [exact Hh|].
    simpl. apply IH; simpl; rewrite Hm; [reflexivity|]. rewrite Hh. reflexivity. }
  apply H; reflexivity.
Qed.

End FetchFacts.

Module ThrottleFacts.
Import Throttle.
Local Open Scope Z_scope.

Lemma clearTimeout_single {A} (t : timer A) :
  clearTimeout A (tid A t) [t] = [].
Proof. unfold clearTimeout. simpl. rewrite Nat.eqb_refl. reflexivity. Qed.

Lemma tinv_step {A} (delay : Z) (w : world A) (e : event A) :
  tinv A w -> tinv A (step A delay w e).
Proof.
  intros Hw. destruct e as [now args|id now|]; simpl.
  - unfold call. destruct (Z.leb delay (now - lastExecuted A w)).
    + exact Hw.
    + right. exists (mkTimer A (next_tid A w) (now + (delay - (now - lastExecuted A w))) args).
      split; [|reflexivity]. simpl.
      destruct Hw as [He | [t [He Hid]]]; rewrite He.
      * destruct (timeoutId A w); reflexivity.
      * rewrite Hid, clearTimeout_single. reflexivity.
  - unfold fire. destruct (find_timer A id (timers A w)) as [t|] eqn:Hf; [|exact Hw].
    destruct (Z.leb (due A t) now); [|exact Hw].
    left. simpl. destruct Hw as [He | [t' [He _]]]; rewrite He in *.
    + reflexivity.
    + unfold find_timer in Hf. simpl in Hf.
      destruct (Nat.eqb (tid A t') id) eqn:Hid; [|discriminate].
      apply Nat.eqb_eq in Hid. subst id. apply clearTimeout_single.
  - exact Hw.
Qed.

Lemma tinv_run {A} (delay : Z) (es : list (event A)) (w : world A) :
  tinv A w -> tinv A (run A delay w es).
Proof.
  revert w. induction es as [|e es IH]; intros w Hw; [exact Hw|].
  simpl. apply IH. apply tinv_step. exact Hw.
Qed.

Lemma tinv_mount {A} (delay : Z) (es : list (event A)) :
  tinv A (run A delay mount es).
Proof. apply tinv_run. left. reflexivity. Qed.

(** A call inside the cooldown window replaces whatever timeout was
    pending by one due at [lastExecuted + delay] carrying its arguments. *)
Lemma call_cooldown {A} (delay : Z) (w : world A) (now : Z) (args : A) :
  tinv A w -> now - lastExecuted A w < delay ->
  call A delay w now args =
  mkWorld A (lastExecuted A w) (Some (next_tid A w))
          [mkTimer A (next_tid A w) (lastExecuted A w + delay) args]
          (S (next_tid A w)) (calls A w) (mounted A w).
Proof.
  intros Hw Hlt. unfold call.
  destruct (Z.leb delay (now - lastExecuted A w)) eqn:Hle.
  { apply Z.leb_le in Hle. lia. }
  replace (now + (delay - (now - lastExecuted A w))) with (lastExecuted A w + delay) by lia.
  f_equal.
  destruct Hw as [He | [t [He Hid]]]; rewrite He.
  - destruct (timeoutId A w); reflexivity.
  - rewrite Hid, clearTimeout_single. reflexivity.
Qed.

(** A call outside the cooldown window invokes [func] at once. *)
Lemma call_leading {A} (delay : Z) (w : world A) (now : Z) (args : A) :
  delay <= now - lastExecuted A w ->
  calls A (call A delay w now args) = calls A w ++ [(now, args)] /\
  lastExecuted A (call A delay w now args) = now.
Proof.
  intros Hle. unfold call. apply Z.leb_le in Hle. rewrite Hle. split; reflexivity.
Qed.

Lemma cooldown_burst {A} (delay : Z) (pre : list (Z * A)) (tn : Z) (an : A) :
  forall w : world A,
  tinv A w ->
  Forall (fun ta => fst ta - lastExecuted A w < delay) (pre ++ [(tn, an)]) ->
  exists id,
    run A delay w (map (fun ta => Call (fst ta) (snd ta)) (pre ++ [(tn, an)])) =
    mkWorld A (lastExecuted A w) (Some id)
            [mkTimer A id (lastExecuted A w + delay) an]
            (S id) (calls A w) (mounted A w).
Proof.
  induction pre as [|[t a] pre IH]; intros w Hw Hf.
  - inversion Hf as [|x l Hx _]; subst. simpl in Hx.
    exists (next_tid A w). simpl. apply call_cooldown; assumption.
  - inversion Hf as [|x l Hx Hrest]; subst. simpl in Hx.
    simpl. rewrite (call_cooldown delay w t a Hw Hx).
    set (w1 := mkWorld A (lastExecuted A w) (Some (next_tid A w))
                 [mkTimer A (next_tid A w) (lastExecuted A w + delay) a]
                 (S (next_tid A w)) (calls A w) (mounted A w)).
    assert (Hw1 : tinv A w1).
    { right. exists (mkTimer A (next_tid A w) (lastExecuted A w + delay) a).
      split; reflexivity. }
    destruct (IH w1 Hw1 Hrest) as [id Hid].
    exists id. exact Hid.
Qed.

(** C3.  After an invocation at [lastExecuted], any burst of calls inside
    the cooldown window leaves exactly one pending timeout, due at
    [lastExecuted + delay] (each call scheduling it [delay - elapsed]
    ahead) and carrying the arguments of the most recent call; no call of
    the burst invokes [func]; when the timeout fires, [func] receives the
    last call's arguments and no other. *)
Theorem throttle_trailing_collapse {A} (delay : Z) (es : list (event A))
  (pre : list (Z * A)) (tn : Z) (an : A)
  (Hcool : Forall (fun ta => fst ta - lastExecuted A (run A delay mount es) < delay)
                  (pre ++ [(tn, an)])) :
  let w := run A delay mount es in
  let w' := run A delay w (map (fun ta => Call (fst ta) (snd ta)) (pre ++ [(tn, an)])) in
  exists id,
    timeoutId A w' = Some id /\
    timers A w' = [mkTimer A id (lastExecuted A w + delay) an] /\
    calls A w' = calls A w /\
    lastExecuted A w' = lastExecuted A w /\
    forall now, lastExecuted A w + delay <= now ->
      calls A (fire A w' id now) = calls A w ++ [(now, an)].
Proof.
  intros w w'.
  destruct (cooldown_burst delay pre tn an w (tinv_mount delay es) Hcool) as [id Hid].
  exists id. subst w'. rewrite Hid. cbn [timeoutId timers calls lastExecuted].
  repeat split.
  intros now Hnow. unfold fire, find_timer. cbn [timers find tid]. rewrite Nat.eqb_refl.
  cbn [due targs calls]. apply Z.leb_le in Hnow. rewrite Hnow. reflexivity.
Qed.

Lemma throttle_trailing_collapse_witness :
  let es := [Call 1000 1%nat] in
  let w := run nat 100 mount es in
  Forall (fun ta => fst ta - lastExecuted nat w < 100) [(1010, 2%nat); (1040, 3%nat)] /\
  exists id,
    timeoutId nat (run nat 100 w (map (fun ta => Call (fst ta) (snd ta))
                                   ([(1010, 2%nat)] ++ [(1040, 3%nat)]))) = Some id /\
    calls nat (fire nat (run nat 100 w (map (fun ta => Call (fst ta) (snd ta))
                                   ([(1010, 2%nat)] ++ [(1040, 3%nat)]))) id 1100) =
      [(1000, 1%nat); (1100, 3%nat)].
Proof.
  intros es w.
  assert (Hc : Forall (fun ta => fst ta - lastExecuted nat w < 100)
                 ([(1010, 2%nat)] ++ [(1040, 3%nat)])).
  { repeat constructor; simpl; lia. }
  split; [exact Hc|].
  destruct (throttle_trailing_collapse 100 es [(1010, 2%nat)] 1040 3%nat Hc)
    as [id [Hid [_ [_ [_ Hfire]]]]].
  exists id. split; [exact Hid|].
  rewrite Hfire; [reflexivity | vm_compute; discriminate].
Defined.

(** C8.  A trailing invocation records the time it fired as the last
    invocation time, so the next cooldown window is measured from it. *)
Theorem throttle_trailing_timestamp {A} (delay : Z) (w : world A) (id : nat)
  (t : timer A) (now : Z)
  (Hfind : find_timer A id (timers A w) = Some t) (Hdue : due A t <= now) :
  lastExecuted A (fire A w id now) = now /\
  calls A (fire A w id now) = calls A w ++ [(now, targs A t)] /\
  forall now' args, now' - now < delay ->
    calls A (call A delay (fire A w id now) now' args) = calls A (fire A w id now).
Proof.
  assert (Hf : fire A w id now =
               mkWorld A now (timeoutId A w) (clearTimeout A id (timers A w)) (next_tid A w)
                       (calls A w ++ [(now, targs A t)]) (mounted A w)).
  { unfold fire. rewrite Hfind. apply Z.leb_le in Hdue. rewrite Hdue. reflexivity. }
  rewrite Hf. split; [reflexivity|]. split; [reflexivity|].
  intros now' args Hlt. unfold call. cbn [lastExecuted].
  destruct (Z.leb delay (now' - now)) eqn:Hle; [apply Z.leb_le in Hle; lia|].
  reflexivity.
Qed.

Lemma throttle_trailing_timestamp_witness :
  let w := run nat 100 mount [Call 1000 1%nat; Call 1010 2%nat] in
  find_timer nat 0 (timers nat w) = Some (mkTimer nat 0 1100 2%nat) /\
  lastExecuted nat (fire nat w 0 1130) = 1130 /\
  calls nat (call nat 100 (fire nat w 0 1130) 1200 9%nat) = calls nat (fire nat w 0 1130).
Proof.
  intros w.
  assert (Hf : find_timer nat 0 (timers nat w) = Some (mkTimer nat 0 1100 2%nat))
    by reflexivity.
  destruct (throttle_trailing_timestamp 100 w 0 (mkTimer nat 0 1100 2%nat) 1130 Hf)
    as [Hl [_ Hn]]; [simpl; lia|].
  split; [exact Hf|]. split; [exact Hl|]. apply Hn. lia.
Defined.

(** C5 (code evaluated at the failing input).  [lastExecuted] starts at 0,
    so a first call whose clock reading is below [delay] (here 50 with
    delay 100) does not invoke [func]: it schedules a trailing timeout. *)
Theorem throttle_first_call_deferred :
  let w := run nat 100 mount [Call 50 7%nat] in
  calls nat w = [] /\ timers nat w = [mkTimer nat 0 100 7%nat].
Proof. vm_compute. split; reflexivity. Qed.

(** C2 (counterexample).  With delay 100: a call at 1000 invokes [func],
    a call at 1010 schedules a trailing timeout, the component unmounts,
    and at 1100 the timeout still fires and invokes [func] with 2. *)
Lemma throttle_fires_after_unmount :
  let w := run nat 100 mount [Call 1000 1%nat; Call 1010 2%nat; Unmount] in
  mounted nat w = false /\
  calls nat w = [(1000, 1%nat)] /\
  calls nat (run nat 100 w [Fire 0 1100]) = [(1000, 1%nat); (1100, 2%nat)].
Proof. vm_compute. repeat split. Qed.

End ThrottleFacts.

Module DebounceFacts.
Import Debounce.
Local Open Scope Z_scope.

Section Burst.
Variable V : Type.
Variable V_eqb : V -> V -> bool.

Lemma burst_run (delay : Z) (pre : list (Z * V)) (tn : Z) (vn : V) :
  forall (w : world V) (prev_t : option Z) (prev_v : V),
  attached V w = true -> seen V w = prev_v -> publishes V w = [] ->
  match prev_t with
  | None => pending V w = None
  | Some p => pending V w = Some (p + delay, prev_v)
  end ->
  rapid V_eqb delay prev_t prev_v (pre ++ [(tn, vn)]) ->
  run V_eqb delay w (pre ++ [(tn, vn)]) =
  mkWorld V vn (out V w) (Some (tn + delay, vn)) [] true.
Proof.
  induction pre as [|[t v] pre IH]; intros w prev_t prev_v Ha Hs Hp Hpend Hr.
  - simpl in Hr. destruct Hr as [Hne [Ht _]].
    unfold run. simpl. unfold tick, advance. simpl.
    destruct prev_t as [p|].
    + rewrite Hpend. destruct (Z.leb (p + delay) tn) eqn:Hle; [apply Z.leb_le in Hle; lia|].
      unfold input. rewrite Ha, Hs, Hne, Hp. reflexivity.
    + rewrite Hpend. unfold input. rewrite Ha, Hs, Hne, Hp. reflexivity.
  - simpl in Hr. destruct Hr as [Hne [Ht Hrest]].
    unfold run. simpl.
    assert (Htick : tick V_eqb delay w (t, v) =
                    mkWorld V v (out V w) (Some (t + delay, v)) [] true).
    { unfold tick, advance. simpl.
      destruct prev_t as [p|]; rewrite Hpend.
      - destruct (Z.leb (p + delay) t) eqn:Hle; [apply Z.leb_le in Hle; lia|].
        unfold input. rewrite Ha, Hs, Hne, Hp. reflexivity.
      - unfold input. rewrite Ha, Hs, Hne, Hp. reflexivity. }
    rewrite Htick.
    exact (IH (mkWorld V v (out V w) (Some (t + delay, v)) [] true) (Some t) v
              eq_refl eq_refl eq_refl eq_refl Hrest).
Qed.

End Burst.

(** C4 (against the spec's model of useDebounce).  After attaching with
    [v0], a burst of changes each arriving less than [delay] after the
    previous one publishes nothing while the timer is pending (the output
    stays [v0]); the only publish is the last value [vn], at [tn + delay],
    [delay] after the last change; intermediate values are never
    published. *)
Theorem debounce_quiescence {V} (V_eqb : V -> V -> bool) (delay : Z) (v0 : V)
  (pre : list (Z * V)) (tn : Z) (vn : V)
  (Hr : rapid V_eqb delay None v0 (pre ++ [(tn, vn)])) :
  let w := run V_eqb delay (attach v0) (pre ++ [(tn, vn)]) in
  out V w = v0 /\ publishes V w = [] /\ pending V w = Some (tn + delay, vn) /\
  (forall T, T < tn + delay -> out V (advance w T) = v0 /\ publishes V (advance w T) = []) /\
  (forall T, tn + delay <= T ->
     out V (advance w T) = vn /\ publishes V (advance w T) = [(tn + delay, vn)]).
Proof.
  intros w.
  assert (Hw : w = mkWorld V vn v0 (Some (tn + delay, vn)) [] true).
  { exact (burst_run V V_eqb delay pre tn vn (attach v0) None v0
             eq_refl eq_refl eq_refl eq_refl Hr). }
  rewrite Hw. split; [reflexivity|]. split; [reflexivity|]. split; [reflexivity|].
  split.
  - intros T HT. unfold advance. simpl.
    destruct (Z.leb (tn + delay) T) eqn:Hle; [apply Z.leb_le in Hle; lia|].
    split; reflexivity.
  - intros T HT. unfold advance. simpl. apply Z.leb_le in HT. rewrite HT.
    split; reflexivity.
Qed.

Lemma debounce_quiescence_witness :
  rapid String.eqb 500 None "a" ([(0, "ab")] ++ [(50, "abc")]) /\
  out string (advance (run String.eqb 500 (attach "a") ([(0, "ab")] ++ [(50, "abc")])) 549)
    = "a" /\
  publishes string
    (advance (run String.eqb 500 (attach "a") ([(0, "ab")] ++ [(50, "abc")])) 550)
    = [(550, "abc")].
Proof.
  assert (Hr : rapid String.eqb 500 None "a" ([(0, "ab")] ++ [(50, "abc")])).
  { simpl. repeat split; lia. }
  destruct (debounce_quiescence String.eqb 500 "a" [(0, "ab")] 50 "abc" Hr)
    as [_ [_ [_ [Hb Ha]]]].
  split; [exact Hr|]. split.
  - apply (Hb 549). lia.
  - apply (Ha 550). lia.
Defined.

Lemma detach_quiet {V} (V_eqb : V -> V -> bool) (delay : Z) (w : world V)
  (tvs : list (Z * V)) :
  run V_eqb delay (detach w) tvs = detach w.
Proof.
  induction tvs as [|tv tvs IH]; [reflexivity|].
  unfold run in *. simpl. exact IH.
Qed.

End DebounceFacts.

Module IntervalFacts.
Import Interval.
Local Open Scope Z_scope.

Lemma option_nat_eqb_true (a b : option nat) : option_nat_eqb a b = true -> a = b.
Proof.
  destruct a, b; simpl; try discriminate; [|reflexivity].
  intros H. apply Nat.eqb_eq in H. subst. reflexivity.
Qed.

Lemma option_Z_eqb_true (a b : option Z) : option_Z_eqb a b = true -> a = b.
Proof.
  destruct a, b; simpl; try discriminate; [|reflexivity].
  intros H. apply Z.eqb_eq in H. subst. reflexivity.
Qed.

Lemma option_Z_eqb_refl (a : option Z) : option_Z_eqb a a = true.
Proof. destruct a; simpl; [apply Z.eqb_refl | reflexivity]. Qed.

Lemma inv_step (w : world) (e : event) : inv w -> inv (step w e).
Proof.
  intros Hw. destruct e as [now cb d|now|]; simpl.
  - destruct Hw as [Hs [Ht Hd]]. unfold render.
    set (w1 := if option_nat_eqb (dep_cb w) (Some cb) then w
               else mkWorld (Some cb) (Some cb) (dep_delay w) (timer w)
                            (next_iid w) (ilog w) (mounted w)).
    assert (H1 : inv w1).
    { subst w1. destruct (option_nat_eqb (dep_cb w) (Some cb)).
      - split; [exact Hs|split; assumption].
      - split; [reflexivity|split; assumption]. }
    destruct (match dep_delay w1 with
              | Some d' => option_Z_eqb d' d
              | None => false end) eqn:Hsame; [exact H1|].
    destruct H1 as [Hs1 _].
    destruct d as [p|]; (split; [exact Hs1|split]); simpl.
    + intros _ t Ht'. injection Ht' as <-. reflexivity.
    + intros _ q Hq. discriminate.
    + intros _ t Ht'. discriminate.
    + intros _ q Hq. discriminate.
  - unfold fire. destruct (timer w) as [t|] eqn:Htm; [|exact Hw].
    destruct (Z.leb (next_due t) now); [|exact Hw].
    destruct Hw as [Hs [Ht _]].
    split; [exact Hs|split]; simpl.
    + intros Hm t' Ht'. injection Ht' as <-. simpl. exact (Ht Hm t Htm).
    + intros _ q Hq. discriminate.
  - destruct Hw as [Hs _]. split; [exact Hs|split]; simpl; intros Hm; discriminate.
Qed.

Lemma inv_run (es : list event) : inv (run mount es).
Proof.
  assert (H : forall w, inv w -> inv (run w es)).
  { induction es as [|e es IH]; intros w Hw; [exact Hw|]. apply IH, inv_step, Hw. }
  apply H. split; [reflexivity|split; intros _; discriminate].
Qed.

(** C6.  In a runner reached by any sequence of renders, firings and
    unmount: a firing invokes the callback of the latest render (or nothing
    before the first render); and while mounted with a non-null delay
    [p], a render with a new callback and the same delay keeps the
    registered interval as it is (same id, period and next due time) and
    the next firing invokes the new callback. *)
Theorem interval_latest_callback (es : list event) (now : Z) (cb : nat) (p : Z)
  (Hm : mounted (run mount es) = true)
  (Hd : dep_delay (run mount es) = Some (Some p)) :
  let w := run mount es in
  let w' := render w now cb (Some p) in
  (forall T c, dep_cb w = Some c ->
     ilog (fire w T) = ilog w \/ ilog (fire w T) = ilog w ++ [(T, c)]) /\
  (exists t, timer w = Some t /\ timer w' = Some t /\
     forall T, next_due t <= T -> ilog (fire w' T) = ilog w ++ [(T, cb)]).
Proof.
  intros w w'.
  destruct (inv_run es) as [Hs [Ht Hdd]]. fold w in Hs, Ht, Hdd, Hm, Hd.
  clearbody w.
  split.
  - intros T c Hc. unfold fire.
    destruct (timer w) as [t|]; [|left; reflexivity].
    destruct (Z.leb (next_due t) T); [|left; reflexivity].
    right. simpl. rewrite Hs, Hc. reflexivity.
  - destruct (timer w) as [t|] eqn:Htm; [|exfalso; exact (Hdd Hm p Hd eq_refl)].
    assert (Hw' : w' = mkWorld (Some cb) (Some cb) (dep_delay w) (timer w)
                              (next_iid w) (ilog w) (mounted w)).
    { subst w'. unfold render.
      destruct (option_nat_eqb (dep_cb w) (Some cb)) eqn:Hc.
      - apply option_nat_eqb_true in Hc.
        rewrite Hd, option_Z_eqb_refl.
        destruct w as [sv dc dd tm ni lg mt]. simpl in *. subst. reflexivity.
      - simpl. rewrite Hd, option_Z_eqb_refl. reflexivity. }
    exists t. split; [reflexivity|]. rewrite Hw'. cbn [timer]. rewrite ?Htm.
    split; [reflexivity|].
    intros T HT. unfold fire. cbn [timer saved ilog]. rewrite ?Htm. apply Z.leb_le in HT. rewrite HT.
    reflexivity.
Qed.

Lemma interval_latest_callback_witness :
  let es := [Render 0 1%nat (Some 1000); Tick 1000] in
  mounted (run mount es) = true /\
  dep_delay (run mount es) = Some (Some 1000) /\
  ilog (fire (render (run mount es) 1500 2%nat (Some 1000)) 2000) =
    [(1000, 1%nat); (2000, 2%nat)].
Proof.
  intros es.
  assert (Hm : mounted (run mount es) = true) by reflexivity.
  assert (Hd : dep_delay (run mount es) = Some (Some 1000)) by reflexivity.
  split; [exact Hm|]. split; [exact Hd|].
  destruct (interval_latest_callback es 1500 2%nat 1000 Hm Hd) as [_ [t [Ht [_ Hf]]]].
  rewrite Hf.
  - reflexivity.
  - vm_compute in Ht. injection Ht as <-. simpl. lia.
Defined.

Lemma unmount_quiet (w : world) (ts : list Z) :
  run (unmount w) (map Tick ts) = unmount w.
Proof.
  induction ts as [|t ts IH]; [reflexivity|].
  unfold run in *. simpl. exact IH.
Qed.

End IntervalFacts.

Module DetachFacts.
Local Open Scope Z_scope.

(** C2 (amended).  After detach: useInterval's cleanup has cleared the
    interval, so later host ticks invoke nothing; the debounce model
    cancels its timer, so nothing is published; useThrottle registers no
    cleanup, so a trailing timeout pending at detach still invokes [func]
    with its arguments when it fires; useFetch registers no cleanup or
    guard, so its calls still run and settle after detach, but React drops
    the [setState] calls of the unmounted component: whatever calls of
    [fetchData] settle or start afterwards, the state stays as it was. *)
Theorem detach_effects {A T V} (V_eqb : V -> V -> bool) (delay : Z)
  (wi : Interval.world) (ts : list Z)
  (wd : Debounce.world V) (tvs : list (Z * V))
  (wt : Throttle.world A) (id : nat) (t : Throttle.timer A) (now : Z)
  (h : Fetch.hook T) (fes : list (Fetch.event T))
  (Hfind : Throttle.find_timer A id (Throttle.timers A wt) = Some t)
  (Hdue : Throttle.due A t <= now) :
  Interval.ilog (Interval.run wi (Interval.Unmount :: map Interval.Tick ts)) =
    Interval.ilog wi /\
  Interval.timer (Interval.run wi (Interval.Unmount :: map Interval.Tick ts)) = None /\
  Debounce.publishes V (Debounce.run V_eqb delay (Debounce.detach wd) tvs) =
    Debounce.publishes V wd /\
  Debounce.out V (Debounce.run V_eqb delay (Debounce.detach wd) tvs) = Debounce.out V wd /\
  Throttle.calls A (Throttle.run A delay wt [Throttle.Unmount; Throttle.Fire id now]) =
    Throttle.calls A wt ++ [(now, Throttle.targs A t)] /\
  Fetch.cells T (Fetch.run T h (Fetch.Detach :: fes)) = Fetch.cells T h.
Proof.
  assert (Ei : Interval.run wi (Interval.Unmount :: map Interval.Tick ts) =
               Interval.unmount wi) by exact (IntervalFacts.unmount_quiet wi ts).
  rewrite Ei.
  split; [|split; [|split; [|split; [|split]]]]; [reflexivity | reflexivity | | | |].
  - rewrite DebounceFacts.detach_quiet. reflexivity.
  - rewrite DebounceFacts.detach_quiet. reflexivity.
  - unfold Throttle.run. simpl. unfold Throttle.fire. simpl. rewrite Hfind.
    apply Z.leb_le in Hdue. rewrite Hdue. reflexivity.
  - exact (proj1 (FetchFacts.unmounted_run fes (Fetch.step T h Fetch.Detach) eq_refl)).
Qed.

Lemma detach_effects_witness :
  Throttle.calls nat
    (Throttle.run nat 100
       (Throttle.run nat 100 Throttle.mount [Throttle.Call 1000 1%nat; Throttle.Call 1010 2%nat])
       [Throttle.Unmount; Throttle.Fire 0 1100]) =
    [(1000, 1%nat); (1100, 2%nat)] /\
  Interval.ilog (Interval.run (Interval.run Interval.mount [Interval.Render 0 1%nat (Some 1000)])
                   (Interval.Unmount :: map Interval.Tick [1000; 2000])) = [] /\
  Fetch.cells nat
    (Fetch.run nat (Fetch.run nat Fetch.mount [Fetch.Trigger])
       [Fetch.Detach;
        Fetch.Settle 0 (Fetch.FetchResolve (Fetch.mkResponse true 200 (Fetch.JsonOk 9%nat)))]) =
    Fetch.mkState nat None true None.
Proof.
  assert (Hf : Throttle.find_timer nat 0
                 (Throttle.timers nat (Throttle.run nat 100 Throttle.mount
                    [Throttle.Call 1000 1%nat; Throttle.Call 1010 2%nat])) =
               Some (Throttle.mkTimer nat 0 1100 2%nat)) by reflexivity.
  destruct (detach_effects (A := nat) (T := nat) Nat.eqb 100
              (Interval.run Interval.mount [Interval.Render 0 1%nat (Some 1000)])
              [1000; 2000] (Debounce.attach 0%nat) []
              (Throttle.run nat 100 Throttle.mount
                 [Throttle.Call 1000 1%nat; Throttle.Call 1010 2%nat])
              0 (Throttle.mkTimer nat 0 1100 2%nat) 1100
              (Fetch.run nat Fetch.mount [Fetch.Trigger])
              [Fetch.Settle 0 (Fetch.FetchResolve (Fetch.mkResponse true 200 (Fetch.JsonOk 9%nat)))]
              Hf ltac:(simpl; lia))
    as [Hi [_ [_ [_ [Ht Hc]]]]].
  split; [rewrite Ht; reflexivity|]. split; [rewrite Hi; reflexivity|].
  rewrite Hc. reflexivity.
Defined.

End DetachFacts.

(** * Further properties of the hooks *)

Module FetchMore.
Import Fetch.



Lemma step_settle_in {T} (h : hook T) (op : nat) (r : fetch_result T) :
  mounted T h = true -> In op (pending T h) ->
  step T h (Settle op r) =
  mkHook T (settle T (cells T h) r) (filter (fun o => negb (Nat.eqb o op)) (pending T h))
         (next_op T h) (mounted T h).
Proof.
  intros Hm Hin. unfold step. rewrite (FetchFacts.in_existsb op _ Hin), Hm. reflexivity.
Qed.

Lemma run_two_triggers {T} (h : hook T) :
  mounted T h = true ->
  run T h [Trigger; Trigger] =
  mkHook T (start T (start T (cells T h))) (S (next_op T h) :: next_op T h :: pending T h)
         (S (S (next_op T h))) (mounted T h).
Proof. intros Hm. unfold run. simpl. rewrite Hm. reflexivity. Qed.





End FetchMore.

Module ThrottleMore.
Import Throttle.
Local Open Scope Z_scope.




Lemma calls_nonpositive {A} (delay : Z) (cs : list (Z * A)) :
  delay <= 0 ->
  forall w : world A, monotone_from A (lastExecuted A w) cs ->
  calls A (run A delay w (map (fun c => Call (fst c) (snd c)) cs)) = calls A w ++ cs /\
  timers A (run A delay w (map (fun c => Call (fst c) (snd c)) cs)) = timers A w.
Proof.
  intros Hd. induction cs as [|[t a] cs IH]; intros w Hm.
  - simpl. rewrite app_nil_r. split; reflexivity.
  - destruct Hm as [Ht Hm].
    assert (Hc : call A delay w t a =
                 mkWorld A t (timeoutId A w) (timers A w) (next_tid A w)
                         (calls A w ++ [(t, a)]) (mounted A w)).
    { unfold call. destruct (Z.leb delay (t - lastExecuted A w)) eqn:E; [reflexivity|].
      apply Z.leb_gt in E. lia. }
    change (run A delay w (map (fun c => Call (fst c) (snd c)) ((t, a) :: cs)))
      with (run A delay (call A delay w t a) (map (fun c => Call (fst c) (snd c)) cs)).
    rewrite Hc.
    destruct (IH (mkWorld A t (timeoutId A w) (timers A w) (next_tid A w)
                          (calls A w ++ [(t, a)]) (mounted A w)) Hm) as [H1 H2].
    rewrite H1, H2. cbn [calls timers]. rewrite <- app_assoc. split; reflexivity.
Qed.



End ThrottleMore.

Module IntervalMore.
Import Interval.
Local Open Scope Z_scope.





End IntervalMore.

Module PreviousMore.
Import Previous.

Lemma renders_from {T} (vs : list T) :
  forall ref : option T, renders ref vs = firstn (length vs) (ref :: map Some vs).
Proof.
  induction vs as [|v vs IH]; intros ref; [reflexivity|].
  simpl. rewrite IH. reflexivity.
Qed.


End PreviousMore.

Module ToggleMore.
Import Toggle.

Lemma apply_all_app (v : bool) (xs ys : list action) :
  apply_all v (xs ++ ys) = apply_all (apply_all v xs) ys.
Proof. unfold apply_all. apply fold_left_app. Qed.



End ToggleMore.

Module WindowSizeMore.
Import WindowSize.
Local Open Scope Z_scope.

Lemma last_cons_default {X} (x : X) (xs : list X) (a b : X) :
  last (x :: xs) a = last (x :: xs) b.
Proof.
  revert x. induction xs as [|y xs IH]; intros x; [reflexivity|].
  change (last (y :: xs) a = last (y :: xs) b). apply IH.
Qed.

Lemma resizes_listening (w : world) (d0 : Z * Z) (ds : list (Z * Z)) :
  window w = Some d0 -> listening w = true ->
  resizes w ds = mkWorld (last ds (size w)) (Some (last ds d0)) true.
Proof.
  revert w d0. induction ds as [|d ds IH]; intros w d0 Hw Hl.
  - destruct w; simpl in *; subst; reflexivity.
  - change (resizes w (d :: ds)) with (resizes (resize w d) ds).
    assert (Hr : resize w d = mkWorld d (Some d) true).
    { unfold resize. rewrite Hw, Hl. reflexivity. }
    rewrite Hr, (IH (mkWorld d (Some d) true) d eq_refl eq_refl). cbn [size].
    destruct ds as [|p ds]; [reflexivity|].
    change (last (d :: p :: ds) (size w)) with (last (p :: ds) (size w)).
    change (last (d :: p :: ds) d0) with (last (p :: ds) d0).
    f_equal; [|f_equal]; apply last_cons_default.
Qed.

Lemma resizes_deaf (w : world) (ds : list (Z * Z)) :
  listening w = false ->
  size (resizes w ds) = size w /\ listening (resizes w ds) = false.
Proof.
  revert w. induction ds as [|d ds IH]; intros w Hl; [split; [reflexivity|exact Hl]|].
  change (resizes w (d :: ds)) with (resizes (resize w d) ds).
  assert (Hr : size (resize w d) = size w /\ listening (resize w d) = false).
  { unfold resize. destruct (window w); [|split; [reflexivity|exact Hl]].
    rewrite Hl. split; reflexivity. }
  destruct Hr as [Hs Hl']. destruct (IH _ Hl') as [H1 H2].
  rewrite H1, Hs. split; [reflexivity|exact H2].
Qed.




End WindowSizeMore.

Module MediaQueryMore.
Import MediaQuery.



Lemma no_window_step (w : world) (e : event) :
  has_window w = false -> matches w = false -> listener w = None ->
  has_window (step w e) = false /\ matches (step w e) = false /\ listener (step w e) = None.
Proof.
  intros Hh Hm Hl. destruct e as [q m|mql b|]; simpl.
  - unfold render. rewrite Hh.
    destruct (dep_query w) as [q0|]; [destruct (String.eqb q0 q)|]; simpl; auto.
  - unfold change. rewrite Hl. auto.
  - auto.
Qed.



End MediaQueryMore.

Module ClickOutsideMore.
Import ClickOutside.

Section Node.
Variable Node : Type.
Variable contains : Node -> Node -> bool.

Lemma dispatches_registered (evs : list (option Node * event Node)) :
  forall w, registered Node w = true ->
  dispatches contains w evs =
  mkWorld Node true
    (handled Node w ++
     map snd (filter (fun re => match fst re with
                                | None => false
                                | Some el => match target Node (snd re) with
                                             | Some t => negb (contains el t)
                                             | None => true
                                             end
                                end) evs)).
Proof.
  induction evs as [|[r ev] evs IH]; intros w Hr.
  - simpl. rewrite app_nil_r. destruct w; simpl in *; subst; reflexivity.
  - change (dispatches contains w ((r, ev) :: evs))
      with (dispatches contains (dispatch contains w r ev) evs).
    assert (Hd : dispatch contains w r ev =
                 mkWorld Node true (listener Node contains r ev (handled Node w)))
      by (unfold dispatch; rewrite Hr; reflexivity).
    rewrite Hd. rewrite IH by reflexivity. cbn [handled].
    unfold listener. destruct r as [el|]; cbn [filter fst snd].
    + destruct (target Node ev) as [t|]; [destruct (contains el t)|]; cbn [negb map];
        rewrite <- ?app_assoc; reflexivity.
    + reflexivity.
Qed.



End Node.

End ClickOutsideMore.

Module DownloadMore.
Import Download.
Local Open Scope Z_scope.

Lemma fresh_step (w : world) (e : event) : fresh w -> fresh (step w e).
Proof.
  unfold fresh. intros [Hb [Hu Hc]]. destruct e as [now ok fn|lk now]; simpl.
  - unfold downloadFile. destruct ok; simpl.
    + split; [|split].
      * intros l Hl. apply in_app_or in Hl as [Hl|[<-|[]]];
          [specialize (Hb l Hl)|]; simpl; lia.
      * intros u Hl. apply in_app_or in Hl as [Hl|[<-|[]]];
          [specialize (Hu u Hl)|]; lia.
      * intros c Hl. apply in_app_or in Hl as [Hl|[<-|[]]];
          [specialize (Hc c Hl)|]; simpl; lia.
    + split; [exact Hb|split; [exact Hu|exact Hc]].
  - unfold cleanup. destruct (find _ (cleanups w)) as [[d l]|]; [|auto].
    destruct (Z.leb d now); [|auto].
    split; [|split]; cbn [body live_urls cleanups next_id].
    + intros x Hx. destruct (existsb _ _); [|auto].
      unfold remove_link in Hx. apply filter_In in Hx as [Hx _]. auto.
    + intros u Hx. apply filter_In in Hx as [Hx _]. auto.
    + intros c Hx. apply filter_In in Hx as [Hx _]. auto.
Qed.

Lemma fresh_run_from (es : list event) : forall w, fresh w -> fresh (run w es).
Proof.
  induction es as [|e es IH]; intros w Hw; [exact Hw|]. apply IH, fresh_step, Hw.
Qed.

Lemma loading_step (w : world) (e : event) :
  isLoading w = false -> isLoading (step w e) = false.
Proof.
  intros H. destruct e as [now ok fn|lk now]; simpl; [reflexivity|].
  unfold cleanup. destruct (find _ _) as [[d l]|]; [destruct (Z.leb d now)|]; exact H.
Qed.

Lemma filter_keep {X} (f : X -> bool) (l : list X) :
  (forall x, In x l -> f x = true) -> filter f l = l.
Proof.
  induction l as [|x l IH]; intros H; [reflexivity|]. simpl.
  rewrite (H x (or_introl eq_refl)). f_equal. apply IH. intros y Hy. apply H. right. exact Hy.
Qed.

Lemma find_skip {X} (f : X -> bool) (l l' : list X) :
  (forall x, In x l -> f x = false) -> find f (l ++ l') = find f l'.
Proof.
  induction l as [|x l IH]; intros H; [reflexivity|]. simpl.
  rewrite (H x (or_introl eq_refl)). apply IH. intros y Hy. apply H. right. exact Hy.
Qed.

(* The model's ids stay below its counter in every reachable state. *)
Lemma fresh_reachable (es : list event) : fresh (run mount es).
Proof.
  apply fresh_run_from. unfold fresh. simpl. split; [|split]; intros _ [].
Qed.





End DownloadMore.
